(** * core-js-101, [src/05-objects-tasks.js]: the CSS selector builder

    A shallow embedding of [Rectangle], of [fromJSON], of the [Selector]
    class and of the [cssSelectorBuilder] facade, together with the
    properties the specification states about them and further properties
    read off the code.

    JavaScript objects are mutable and shared by reference, so a [Selector]
    instance lives in a heap at a location and every method is a computation
    over that heap which either completes normally or throws. *)

From Stdlib Require Import ZArith String Ascii List Sorted.
From Stdlib Require Floats.
From stdpp Require Import base option list sorting gmap strings.

(** [a === b] on strings, the strict equality of JavaScript. *)
Notation "a === b" := (String.eqb a b) (at level 70, no associativity).

(** ** Completions *)

(** What a [throw] can carry in this file: [new Error(message)] thrown by
    [validate], the [TypeError] of reading a property of [undefined] or of
    calling what is not a function, and the [SyntaxError] of [JSON.parse]. *)
Inductive exn :=
  | Error (message : string)
  | TypeError
  | SyntaxError (message : string).

Inductive completion (A : Type) :=
  | Normal (a : A)
  | Throw (e : exn).
Arguments Normal {A} a.
Arguments Throw {A} e.

(** ** The heap of [Selector] instances *)

(** An entry [{ type, value }] of the array [this.selector]. The facade is
    called with strings, so [value] is a string. *)
Record fragment := Fragment { type : string; value : string }.

Definition loc := positive.

(** The only field of a [Selector] instance is the array [selector], so the
    heap maps the location of an instance to the contents of that array. *)
Abbreviation heap := (gmap loc (list fragment)).

(** A computation reads and updates the heap; when it throws, the heap is
    the one reached at the point of the [throw]. *)
Definition M (A : Type) : Type := heap → completion A * heap.

#[global] Instance M_ret : MRet M := λ A a σ, (Normal a, σ).

#[global] Instance M_bind : MBind M := λ A B k m σ,
  match m σ with
  | (Normal a, σ') => k a σ'
  | (Throw e, σ') => (Throw e, σ')
  end.

Definition throw {A : Type} (e : exn) : M A := λ σ, (Throw e, σ).

(** [this.selector]. A location with no instance stands for a value that
    is not a [Selector]: reading its field is a [TypeError]. Locations only
    come from [new_Selector], so a program never sees that case. *)
Definition get_selector (this : loc) : M (list fragment) := λ σ,
  match σ !! this with
  | Some selector => (Normal selector, σ)
  | None => (Throw TypeError, σ)
  end.

(** [this.selector.push(el)] *)
Definition push (this : loc) (el : fragment) : M unit := λ σ,
  match σ !! this with
  | Some selector => (Normal tt, <[this := selector ++ [el]]> σ)
  | None => (Throw TypeError, σ)
  end.

(** [new Selector(selector)]: the constructor stores the one-element array
    [[selector]] in a fresh instance. *)
Definition new_Selector (selector : fragment) : M loc := λ σ,
  let this := fresh (dom σ) in (Normal this, <[this := [selector]]> σ).

(** ** Array helpers *)

(** [Array.prototype.indexOf]: the first index holding [x], [-1] if none. *)
Fixpoint indexOf_from (i : Z) (l : list string) (x : string) : Z :=
  match l with
  | [] => (-1)%Z
  | y :: l' => if y === x then i else indexOf_from (i + 1)%Z l' x
  end.

Definition indexOf (l : list string) (x : string) : Z := indexOf_from 0%Z l x.

(** ** [class Selector] *)

Definition correctOrder : list string :=
  ["element"; "id"; "class"; "attr"; "pseudo-class"; "pseudo-element"].

(** The two messages [validate] throws. The specification calls the first
    error [DuplicateSelectorPartError] and the second [SelectorOrderError]. *)
Definition DuplicateSelectorPartError : exn :=
  Error "Element, id and pseudo-element should not occur more then one time inside the selector".

Definition SelectorOrderError : exn :=
  Error "Selector parts should be arranged in the following order: element, id, class, attribute, pseudo-class, pseudo-element".

Module Selector.

(** [validate(type)]. An object returned by [find] is truthy, [undefined]
    is not; [this.selector[this.selector.length - 1]] is [undefined] on an
    empty array, and reading [.type] of it is a [TypeError]. *)
Definition validate (type' : string) (this : loc) : M unit :=
  selector ← get_selector this;
  (if (type' === "element") || (type' === "id") || (type' === "pseudo-element")
   then
     match List.find (λ el, type el === type') selector with
     | Some _ => throw DuplicateSelectorPartError
     | None => mret tt
     end
   else mret tt);;
  lastEl ← match last selector with
           | Some el => mret el
           | None => throw TypeError
           end;
  let index := indexOf correctOrder (type lastEl) in
  if (indexOf correctOrder type' <? index)%Z
  then throw SelectorOrderError
  else mret tt.

Definition element (value : string) (this : loc) : M loc :=
  validate "element" this;;
  push this {| type := "element"; value := value |};;
  mret this.

Definition id (value : string) (this : loc) : M loc :=
  validate "id" this;;
  push this {| type := "id"; value := value |};;
  mret this.

Definition class (value : string) (this : loc) : M loc :=
  validate "class" this;;
  push this {| type := "class"; value := value |};;
  mret this.

Definition attr (value : string) (this : loc) : M loc :=
  validate "attr" this;;
  push this {| type := "attr"; value := value |};;
  mret this.

Definition pseudoClass (value : string) (this : loc) : M loc :=
  validate "pseudo-class" this;;
  push this {| type := "pseudo-class"; value := value |};;
  mret this.

Definition pseudoElement (value : string) (this : loc) : M loc :=
  validate "pseudo-element" this;;
  push this {| type := "pseudo-element"; value := value |};;
  mret this.

(** The callback of the [reduce] in [stringify]. *)
Definition reducer (acc : string) (el : fragment) : string :=
  if type el === "element" then acc +:+ value el
  else if type el === "id" then acc +:+ "#" +:+ value el
  else if type el === "class" then acc +:+ "." +:+ value el
  else if type el === "attr" then acc +:+ "[" +:+ value el +:+ "]"
  else if type el === "pseudo-class" then acc +:+ ":" +:+ value el
  else if type el === "pseudo-element" then acc +:+ "::" +:+ value el
  else acc.

Definition stringify (this : loc) : M string :=
  selector ← get_selector this;
  mret (fold_left reducer selector "").

End Selector.

(** ** Selector-like values and [combine] *)

(** What [combine] takes and returns: a reference to a [Selector] instance,
    or the object literal [{ sel1, sel2, combinator, stringify }]. No code of
    the file assigns to a field of that literal, so it is a value here; its
    two children are held as they were passed, down to the references to
    [Selector] instances, which stay shared with the caller. *)
Inductive selector_like :=
  | Ref (this : loc)
  | Combined (sel1 : selector_like) (combinator : string) (sel2 : selector_like).

(** The method call [x.stringify()], dispatched on what [x] is. *)
Fixpoint stringify (x : selector_like) : M string :=
  match x with
  | Ref this => Selector.stringify this
  | Combined sel1 combinator sel2 =>
      s1 ← stringify sel1;
      s2 ← stringify sel2;
      mret (s1 +:+ " " +:+ combinator +:+ " " +:+ s2)
  end.

(** ** [const cssSelectorBuilder] *)

Module cssSelectorBuilder.

Definition element (value : string) : M loc :=
  new_Selector {| type := "element"; value := value |}.

Definition id (value : string) : M loc :=
  new_Selector {| type := "id"; value := value |}.

Definition class (value : string) : M loc :=
  new_Selector {| type := "class"; value := value |}.

Definition attr (value : string) : M loc :=
  new_Selector {| type := "attr"; value := value |}.

Definition pseudoClass (value : string) : M loc :=
  new_Selector {| type := "pseudo-class"; value := value |}.

Definition pseudoElement (value : string) : M loc :=
  new_Selector {| type := "pseudo-element"; value := value |}.

Definition combine (sel1 : selector_like) (combinator : string)
    (sel2 : selector_like) : selector_like :=
  Combined sel1 combinator sel2.

End cssSelectorBuilder.

(** ** Property tables

    A method is found by its name: [o.name(...)] throws a [TypeError] when
    [o] has no property [name]. The tables list the properties in the order
    the source defines them. *)

Inductive facade_method :=
  | Entry (f : string → M loc)
  | Combinator (f : selector_like → string → selector_like → selector_like).

Definition cssSelectorBuilder_properties : list (string * facade_method) :=
  [ ("element", Entry cssSelectorBuilder.element);
    ("id", Entry cssSelectorBuilder.id);
    ("class", Entry cssSelectorBuilder.class);
    ("attr", Entry cssSelectorBuilder.attr);
    ("pseudoClass", Entry cssSelectorBuilder.pseudoClass);
    ("pseudoElement", Entry cssSelectorBuilder.pseudoElement);
    ("combine", Combinator cssSelectorBuilder.combine) ].

(** The methods of [Selector.prototype] that take a value and return
    [this]. *)
Definition Selector_prototype : list (string * (string → loc → M loc)) :=
  [ ("element", Selector.element);
    ("id", Selector.id);
    ("class", Selector.class);
    ("attr", Selector.attr);
    ("pseudoClass", Selector.pseudoClass);
    ("pseudoElement", Selector.pseudoElement) ].

Fixpoint get_property {A : Type} (o : list (string * A)) (name : string) : option A :=
  match o with
  | [] => None
  | (key, m) :: o' => if key === name then Some m else get_property o' name
  end.

(** [cssSelectorBuilder[name](value)] *)
Definition call_facade (name : string) (value : string) : M loc :=
  match get_property cssSelectorBuilder_properties name with
  | Some (Entry f) => f value
  | _ => throw TypeError
  end.

(** [this[name](value)] for a [Selector] instance [this] *)
Definition call_method (name : string) (value : string) (this : loc) : M loc :=
  match get_property Selector_prototype name with
  | Some f => f value this
  | None => throw TypeError
  end.

(** ** Programs over the public interface *)

(** The six fragment kinds, one per facade entry point and per append
    method. *)
Inductive kind :=
  | KElement | KId | KClass | KAttr | KPseudoClass | KPseudoElement.

(** The string the source stores in the field [type] for a kind. *)
Definition type_of (k : kind) : string :=
  match k with
  | KElement => "element"
  | KId => "id"
  | KClass => "class"
  | KAttr => "attr"
  | KPseudoClass => "pseudo-class"
  | KPseudoElement => "pseudo-element"
  end.

Definition facade (k : kind) : string → M loc :=
  match k with
  | KElement => cssSelectorBuilder.element
  | KId => cssSelectorBuilder.id
  | KClass => cssSelectorBuilder.class
  | KAttr => cssSelectorBuilder.attr
  | KPseudoClass => cssSelectorBuilder.pseudoClass
  | KPseudoElement => cssSelectorBuilder.pseudoElement
  end.

Definition append (k : kind) : string → loc → M loc :=
  match k with
  | KElement => Selector.element
  | KId => Selector.id
  | KClass => Selector.class
  | KAttr => Selector.attr
  | KPseudoClass => Selector.pseudoClass
  | KPseudoElement => Selector.pseudoElement
  end.

(** The fragment an append call of kind [k] stores. *)
Definition stored (call : kind * string) : fragment :=
  {| type := type_of call.1; value := call.2 |}.

(** A caller of the public interface creates selectors through the facade
    and calls append methods on selectors it holds; a call that throws is
    caught by the caller, which goes on with the heap the call left. *)
Inductive action :=
  | Create (k : kind) (value : string)
  | Append (k : kind) (value : string) (this : loc).

Definition exec (a : action) (σ : heap) : heap :=
  match a with
  | Create k value => (facade k value σ).2
  | Append k value this => (append k value this σ).2
  end.

Inductive reachable : heap → Prop :=
  | reachable_init : reachable ∅
  | reachable_step σ a : reachable σ → reachable (exec a σ).

(** One facade call followed by a chain of append calls:
    [builder.k0(v0).k1(v1)...kn(vn)]. *)
Fixpoint chain (calls : list (kind * string)) (this : loc) : M loc :=
  match calls with
  | [] => mret this
  | (k, value) :: calls' => this' ← append k value this; chain calls' this'
  end.

Definition build (seed : kind * string) (calls : list (kind * string)) : M loc :=
  this ← facade seed.1 seed.2; chain calls this.

(** ** [fromJSON] *)

Section FromJSON.

(** [JSON.parse], [Object.getOwnPropertyDescriptors] and [Object.create]
    are built-ins of the language, not code of the repository: they are
    the parameters of this section. Each may throw; [Object.create]
    allocates the object it returns in the object store. *)
Context {Value Descriptors Store : Type}.
Variable JSON_parse : string → completion Value.
Variable Object_getOwnPropertyDescriptors : Value → completion Descriptors.
Variable Object_create : Value → Descriptors → Store → completion Value * Store.

Definition fromJSON (proto : Value) (json : string) (st : Store)
    : completion Value * Store :=
  match JSON_parse json with
  | Throw e => (Throw e, st)
  | Normal obj =>
      match Object_getOwnPropertyDescriptors obj with
      | Throw e => (Throw e, st)
      | Normal descriptors => Object_create proto descriptors st
      end
  end.

End FromJSON.

(** ** The vocabulary of the specification *)

(** The rank of a stored fragment: the position of its [type] in
    [correctOrder]. *)
Definition rank (el : fragment) : Z := indexOf correctOrder (type el).

(** The rank the specification gives to each kind. *)
Definition kind_rank (k : kind) : Z :=
  match k with
  | KElement => 0
  | KId => 1
  | KClass => 2
  | KAttr => 3
  | KPseudoClass => 4
  | KPseudoElement => 5
  end.

(** The kinds of which a selector may hold one fragment only. *)
Definition single (k : kind) : bool :=
  match k with
  | KElement | KId | KPseudoElement => true
  | KClass | KAttr | KPseudoClass => false
  end.

(** The number of fragments of a kind in a fragment sequence. *)
Definition occurrences (k : kind) (selector : list fragment) : nat :=
  length (filter (λ el, type el = type_of k) selector).

(** The invariants of a Selector: every fragment is of one of the six
    kinds, there is at most one fragment of each of the kinds element, id
    and pseudo-element, and the ranks never decrease along the sequence. *)
Definition selector_invariant (selector : list fragment) : Prop :=
  Forall (λ el, ∃ k, type el = type_of k) selector
  ∧ (∀ k, single k = true → (occurrences k selector ≤ 1)%nat)
  ∧ Sorted Z.le (rank <$> selector).

(** What holds of every instance of a heap the public interface can
    reach. *)
Definition heap_invariant (σ : heap) : Prop :=
  ∀ this selector, σ !! this = Some selector →
    selector_invariant selector ∧ selector ≠ [].

(** The text of a fragment with the punctuation of its kind, as the
    specification describes it. *)
Definition punctuated (call : kind * string) : string :=
  let text := call.2 in
  match call.1 with
  | KElement => text
  | KId => "#" +:+ text
  | KClass => "." +:+ text
  | KAttr => "[" +:+ text +:+ "]"
  | KPseudoClass => ":" +:+ text
  | KPseudoElement => "::" +:+ text
  end.

(** The concatenation of a list of strings with no separator. *)
Definition concatenation (l : list string) : string :=
  fold_right String.append "" l.

(** A selector-like value is built when every [Selector] reference in it
    points to an instance of the heap. References of a running program
    always do: a location is only obtained from [new_Selector]. *)
Fixpoint built (σ : heap) (x : selector_like) : Prop :=
  match x with
  | Ref this => is_Some (σ !! this)
  | Combined sel1 _ sel2 => built σ sel1 ∧ built σ sel2
  end.

(** ** The outcome of [validate] as a function of the array

    [validate] only reads [this.selector]; [check] is its outcome for a
    given content of the array, and [validate_check] below proves it so. *)
Definition check (selector : list fragment) (type' : string) : completion unit :=
  if ((type' === "element") || (type' === "id") || (type' === "pseudo-element"))
     && bool_decide (is_Some (List.find (λ el, type el === type') selector))
  then Throw DuplicateSelectorPartError
  else match last selector with
       | None => Throw TypeError
       | Some lastEl =>
           if (indexOf correctOrder type' <? rank lastEl)%Z
           then Throw SelectorOrderError
           else Normal tt
       end.

(** ** The scenarios of the specification *)

(** [builder.id('main').class('container').class('editable').stringify()] *)
Definition scenario_main : M string :=
  this ← cssSelectorBuilder.id "main";
  this ← Selector.class "container" this;
  this ← Selector.class "editable" this;
  Selector.stringify this.

(** The double-quote character, and the attribute text whose suffix
    [.png] stands between two of them. *)
Definition quote : string := String (ascii_of_nat 34) "".

Definition href_png : string := "href$=" +:+ quote +:+ ".png" +:+ quote.

(** [builder.element('a')[name](href_png).pseudoClass('focus').stringify()],
    with the methods looked up by name; the example of the source has
    [attr] for [name]. *)
Definition scenario_png (name : string) : M string :=
  this ← call_facade "element" "a";
  this ← call_method name href_png this;
  this ← call_method "pseudoClass" "focus" this;
  Selector.stringify this.

(** [builder.id('a').id('b')] *)
Definition scenario_second_id : M loc :=
  this ← cssSelectorBuilder.id "a";
  Selector.id "b" this.

(** [builder.pseudoClass('hover').class('x')] *)
Definition scenario_class_after_pseudoClass : M loc :=
  this ← cssSelectorBuilder.pseudoClass "hover";
  Selector.class "x" this.

(** The heap after [builder.element('a').id('b')] in a fresh program: one
    instance, at the first location. *)
Definition heap_a_b : heap :=
  {[ 1%positive := [Fragment "element" "a"; Fragment "id" "b"] ]}.

(** ** [function Rectangle]

    The constructor stores its two arguments; [getArea] multiplies them. A
    JavaScript number is an IEEE 754 binary64 value and [*] on numbers is
    the binary64 product, which is what the primitive floats and their
    product are. *)
Record Rectangle := new_Rectangle {
  width : PrimFloat.float;
  height : PrimFloat.float
}.

Definition getArea (this : Rectangle) : PrimFloat.float :=
  PrimFloat.mul (width this) (height this).

(** ** The instances a selector-like value refers to *)

Fixpoint refers (x : selector_like) (l : loc) : Prop :=
  match x with
  | Ref this => this = l
  | Combined sel1 _ sel2 => refers sel1 l ∨ refers sel2 l
  end.

(** ** The call sequences the builder accepts *)

(** Whether [validate] lets a fragment of kind [k'] follow a last fragment
    of kind [k] in a selector the interface built: the rank of [k'] is
    strictly higher, or it is the same and [k'] is one of the kinds that
    may repeat. *)
Definition follows (k k' : kind) : bool :=
  (kind_rank k <? kind_rank k')%Z
  || ((kind_rank k =? kind_rank k')%Z && negb (single k')).

(** Whether each kind of [ks] may follow the one before it, starting after
    a fragment of kind [k]. *)
Fixpoint accepted_from (k : kind) (ks : list kind) : bool :=
  match ks with
  | [] => true
  | k' :: ks' => follows k k' && accepted_from k' ks'
  end.

(** * Properties *)

(** ** The monad and the heap primitives *)

Lemma bind_normal {A B} (m : M A) (k : A → M B) σ a σ' :
  m σ = (Normal a, σ') → (m ≫= k) σ = k a σ'.
Proof. intros H. unfold mbind, M_bind. by rewrite H. Qed.

Lemma bind_throw {A B} (m : M A) (k : A → M B) σ e σ' :
  m σ = (Throw e, σ') → (m ≫= k) σ = (Throw e, σ').
Proof. intros H. unfold mbind, M_bind. by rewrite H. Qed.

Lemma validate_check σ this selector type' :
  σ !! this = Some selector →
  Selector.validate type' this σ = (check selector type', σ).
Proof.
  intros Hthis. unfold Selector.validate, check, rank.
  erewrite bind_normal; last by (unfold get_selector; rewrite Hthis).
  destruct ((type' === "element") || (type' === "id") || (type' === "pseudo-element")); simpl.
  - destruct (List.find _ selector) as [el|]; simpl.
    + done.
    + unfold mbind, M_bind, mret, M_ret. simpl.
      destruct (last selector) as [lastEl|]; [|done]. simpl.
      by destruct (_ <? _)%Z.
  - unfold mbind, M_bind, mret, M_ret. simpl.
    destruct (last selector) as [lastEl|]; [|done]. simpl.
    by destruct (_ <? _)%Z.
Qed.

Lemma validate_no_instance σ this type' :
  σ !! this = None → Selector.validate type' this σ = (Throw TypeError, σ).
Proof.
  intros Hthis. unfold Selector.validate.
  apply bind_throw. unfold get_selector. by rewrite Hthis.
Qed.

(** Every append method is: validate, then push, then return [this]. *)
Lemma append_unfold k value this :
  append k value this =
    (Selector.validate (type_of k) this;;
     push this {| type := type_of k; value := value |};;
     mret this).
Proof. by destruct k. Qed.

Lemma append_run σ this selector k value :
  σ !! this = Some selector →
  append k value this σ =
    match check selector (type_of k) with
    | Normal _ =>
        (Normal this, <[this := selector ++ [Fragment (type_of k) value]]> σ)
    | Throw e => (Throw e, σ)
    end.
Proof.
  intros Hthis. rewrite append_unfold.
  unfold mbind at 1. unfold M_bind. rewrite (validate_check _ _ _ _ Hthis).
  destruct (check selector (type_of k)) as [[]|e]; [|done].
  unfold mbind, M_bind, push. by rewrite Hthis.
Qed.

Lemma append_no_instance σ this k value :
  σ !! this = None → append k value this σ = (Throw TypeError, σ).
Proof.
  intros Hthis. rewrite append_unfold.
  apply bind_throw. by apply validate_no_instance.
Qed.

Lemma facade_run σ k value :
  facade k value σ =
    (Normal (fresh (dom σ)), <[fresh (dom σ) := [Fragment (type_of k) value]]> σ).
Proof. by destruct k. Qed.

(** ** [check] on the six kinds *)

Lemma type_of_inj k1 k2 : type_of k1 = type_of k2 → k1 = k2.
Proof. by destruct k1, k2. Qed.

Lemma single_test k :
  (type_of k === "element") || (type_of k === "id") || (type_of k === "pseudo-element")
  = single k.
Proof. by destruct k. Qed.

Lemma indexOf_type_of k : indexOf correctOrder (type_of k) = kind_rank k.
Proof. by destruct k. Qed.

Lemma find_type_Some selector type' :
  is_Some (List.find (λ el, type el === type') selector)
  ↔ ∃ el, el ∈ selector ∧ type el = type'.
Proof.
  induction selector as [|el0 selector IH]; simpl.
  - split; [by intros [? ?] | intros (el & Hel & _); by apply elem_of_nil in Hel].
  - destruct (type el0 === type') eqn:Heq.
    + apply String.eqb_eq in Heq. split; [|by eauto].
      intros _. exists el0. split; [apply list_elem_of_here | done].
    + apply String.eqb_neq in Heq. rewrite IH. split.
      * intros (el & Hel & Hty). exists el. split; [by apply list_elem_of_further | done].
      * intros (el & Hel & Hty). apply elem_of_cons in Hel as [->|Hel]; [done | eauto].
Qed.

Lemma occurrences_zero k selector :
  occurrences k selector = 0%nat ↔ ∀ el, el ∈ selector → type el ≠ type_of k.
Proof.
  unfold occurrences. induction selector as [|el0 selector IH].
  - split; [|done]. intros _ el Hel. by apply elem_of_nil in Hel.
  - rewrite filter_cons. case_decide as Hty; simpl.
    + split; [done|]. intros Hno. exfalso. apply (Hno el0); [apply list_elem_of_here | done].
    + rewrite IH. split.
      * intros Hno el Hel. apply elem_of_cons in Hel as [->|Hel]; [done | by apply Hno].
      * intros Hno el Hel. by apply Hno, list_elem_of_further.
Qed.

Lemma occurrences_snoc k selector el :
  occurrences k (selector ++ [el]) =
    (occurrences k selector + if decide (type el = type_of k) then 1 else 0)%nat.
Proof.
  unfold occurrences. rewrite filter_app, length_app. f_equal.
  rewrite filter_cons, filter_nil. by case_decide.
Qed.

Lemma check_empty type' : check [] type' = Throw TypeError.
Proof.
  unfold check. simpl. by rewrite andb_false_r.
Qed.

Lemma check_duplicate selector k :
  single k = true →
  (∃ el, el ∈ selector ∧ type el = type_of k) →
  check selector (type_of k) = Throw DuplicateSelectorPartError.
Proof.
  intros Hk Hex. unfold check. rewrite single_test, Hk.
  rewrite bool_decide_eq_true_2; [done|]. by apply find_type_Some.
Qed.

Lemma check_order selector k lastEl :
  (single k = true → ∀ el, el ∈ selector → type el ≠ type_of k) →
  last selector = Some lastEl →
  check selector (type_of k) =
    if (kind_rank k <? rank lastEl)%Z then Throw SelectorOrderError else Normal tt.
Proof.
  intros Hno Hlast. unfold check. rewrite single_test, Hlast, indexOf_type_of.
  destruct (single k) eqn:Hk; [|done]. simpl.
  rewrite bool_decide_eq_false_2; [done|].
  rewrite find_type_Some. intros (el & Hel & Hty). by eapply Hno.
Qed.

(** What a passed check says about the array. *)
Lemma check_Normal selector k u :
  check selector (type_of k) = Normal u →
  ∃ lastEl, last selector = Some lastEl
    ∧ (rank lastEl ≤ kind_rank k)%Z
    ∧ (single k = true → occurrences k selector = 0%nat).
Proof.
  unfold check. rewrite single_test, indexOf_type_of.
  destruct (single k && _) eqn:Hdup; [done|].
  destruct (last selector) as [lastEl|]; [|done].
  destruct (kind_rank k <? rank lastEl)%Z eqn:Hlt; [done|]. intros _.
  exists lastEl. split; [done|]. split; [by apply Z.ltb_ge|].
  intros Hk. rewrite Hk in Hdup. simpl in Hdup.
  apply bool_decide_eq_false in Hdup. apply occurrences_zero.
  intros el Hel Hty. apply Hdup, find_type_Some. eauto.
Qed.

(** The only errors [check] gives. *)
Lemma check_Throw selector type' e :
  check selector type' = Throw e →
  e = DuplicateSelectorPartError ∨ e = SelectorOrderError
  ∨ (e = TypeError ∧ selector = []).
Proof.
  unfold check. destruct (_ && _); [intros [= <-]; by left|].
  destruct (last selector) as [lastEl|] eqn:Hlast.
  - destruct (_ <? _)%Z; [intros [= <-]; by right; left | done].
  - intros [= <-]. right; right. split; [done|]. by apply last_None.
Qed.

(** ** The invariants are kept by every call *)

Lemma rank_kind k value : rank (Fragment (type_of k) value) = kind_rank k.
Proof. by destruct k. Qed.

Lemma invariant_seed k value : selector_invariant [Fragment (type_of k) value].
Proof.
  repeat split.
  - constructor; [by exists k | constructor].
  - intros k' _. unfold occurrences. rewrite filter_cons, filter_nil.
    case_decide; simpl; lia.
  - simpl. repeat constructor.
Qed.

Lemma invariant_append selector k value u :
  selector_invariant selector →
  check selector (type_of k) = Normal u →
  selector_invariant (selector ++ [Fragment (type_of k) value]).
Proof.
  intros (Hkinds & Hsingle & Hsorted) Hcheck.
  destruct (check_Normal _ _ _ Hcheck) as (lastEl & Hlast & Hrank & Hzero).
  repeat split.
  - apply Forall_app. split; [done|]. constructor; [by exists k | constructor].
  - intros k' Hk'. rewrite occurrences_snoc. simpl. case_decide as Hty.
    + apply type_of_inj in Hty as ->. rewrite Hzero; [lia | done].
    + specialize (Hsingle k' Hk'). lia.
  - rewrite fmap_app. simpl. apply Sorted_snoc; [done|].
    apply last_Some in Hlast as [selector' ->].
    rewrite fmap_app. simpl. constructor. by rewrite rank_kind.
Qed.

Lemma fresh_no_instance (σ : heap) : σ !! fresh (dom σ) = None.
Proof. apply not_elem_of_dom, is_fresh. Qed.

Lemma exec_invariant a σ : heap_invariant σ → heap_invariant (exec a σ).
Proof.
  intros Hinv this selector. destruct a as [k value | k value this0]; simpl.
  - rewrite facade_run. simpl. rewrite lookup_insert. case_decide.
    + intros [= <-]. split; [apply invariant_seed | done].
    + apply Hinv.
  - destruct (σ !! this0) as [selector0|] eqn:Hthis0.
    + rewrite (append_run _ _ _ _ _ Hthis0).
      destruct (check selector0 (type_of k)) as [u|e] eqn:Hcheck; simpl; [|apply Hinv].
      rewrite lookup_insert. case_decide; [|apply Hinv].
      intros [= <-]. split.
      * eapply invariant_append; [by eapply Hinv | done].
      * by destruct selector0.
    + rewrite (append_no_instance _ _ _ _ Hthis0). apply Hinv.
Qed.

Lemma reachable_invariant σ : reachable σ → heap_invariant σ.
Proof.
  induction 1 as [|σ a _ IH].
  - intros this selector Hthis. by rewrite lookup_empty in Hthis.
  - by apply exec_invariant.
Qed.

(** A call never shortens the array of an instance. *)
Lemma exec_grows a σ this selector :
  σ !! this = Some selector →
  ∃ selector', exec a σ !! this = Some selector'
    ∧ (length selector ≤ length selector')%nat.
Proof.
  intros Hthis. destruct a as [k value | k value this0]; simpl.
  - rewrite facade_run. simpl. rewrite lookup_insert_ne.
    + exists selector. by split.
    + intros Heq. pose proof (fresh_no_instance σ) as Hfresh.
      rewrite Heq in Hfresh. congruence.
  - destruct (σ !! this0) as [selector0|] eqn:Hthis0.
    + rewrite (append_run _ _ _ _ _ Hthis0).
      destruct (check selector0 (type_of k)) as [u|e]; simpl; [|by exists selector].
      rewrite lookup_insert. case_decide as Heq; [|by exists selector].
      subst this0. replace selector0 with selector by congruence.
      eexists. split; [done|]. rewrite length_app. lia.
    + rewrite (append_no_instance _ _ _ _ Hthis0). by exists selector.
Qed.

(** ** Strings *)

Lemma append_cons a s t : String a s +:+ t = String a (s +:+ t).
Proof. reflexivity. Qed.

Lemma append_nil_r s : s +:+ "" = s.
Proof. induction s as [|a s IH]; [done|]. by rewrite append_cons, IH. Qed.

Lemma append_assoc s t u : (s +:+ t) +:+ u = s +:+ t +:+ u.
Proof. induction s as [|a s IH]; [done|]. by rewrite !append_cons, IH. Qed.

Lemma length_append s t :
  String.length (s +:+ t) = (String.length s + String.length t)%nat.
Proof. induction s as [|a s IH]; [done|]. rewrite append_cons. simpl. by rewrite IH. Qed.

(** ** [stringify] of a [Selector] *)

Lemma reducer_stored acc call :
  Selector.reducer acc (stored call) = acc +:+ punctuated call.
Proof. destruct call as [[] text]; reflexivity. Qed.

Lemma reduce_stored calls acc :
  fold_left Selector.reducer (stored <$> calls) acc
  = acc +:+ concatenation (punctuated <$> calls).
Proof.
  revert acc. induction calls as [|call calls IH]; intros acc; simpl.
  - by rewrite append_nil_r.
  - by rewrite IH, reducer_stored, append_assoc.
Qed.

Lemma reduce_app selector1 selector2 acc :
  fold_left Selector.reducer (selector1 ++ selector2) acc
  = fold_left Selector.reducer selector2 (fold_left Selector.reducer selector1 acc).
Proof. apply fold_left_app. Qed.

Lemma stringify_run σ this selector :
  σ !! this = Some selector →
  Selector.stringify this σ = (Normal (fold_left Selector.reducer selector ""), σ).
Proof.
  intros Hthis. unfold Selector.stringify.
  erewrite bind_normal; [done|]. unfold get_selector. by rewrite Hthis.
Qed.

(** ** Chains of calls *)

Lemma append_ok σ this selector k value :
  σ !! this = Some selector →
  check selector (type_of k) = Normal tt →
  append k value this σ = (Normal this, <[this := selector ++ [stored (k, value)]]> σ).
Proof. intros Hthis Hcheck. by rewrite (append_run _ _ _ _ _ Hthis), Hcheck. Qed.

Lemma append_fail σ this selector k value e :
  σ !! this = Some selector →
  check selector (type_of k) = Throw e →
  append k value this σ = (Throw e, σ).
Proof. intros Hthis Hcheck. by rewrite (append_run _ _ _ _ _ Hthis), Hcheck. Qed.

(** A chain that completes returns the instance it started from, with the
    fragments of its calls pushed in call order. *)
Lemma chain_Normal calls σ this selector this' σ' :
  σ !! this = Some selector →
  chain calls this σ = (Normal this', σ') →
  this' = this ∧ σ' !! this = Some (selector ++ (stored <$> calls)).
Proof.
  revert σ selector. induction calls as [|[k value] calls IH]; intros σ selector Hthis; simpl.
  - intros [= <- <-]. by rewrite app_nil_r.
  - unfold mbind, M_bind. rewrite (append_run _ _ _ _ _ Hthis).
    destruct (check selector (type_of k)) as [u|e]; [|done]. intros Hchain.
    eapply IH in Hchain; [|apply lookup_insert_eq].
    destruct Hchain as [-> ->]. by rewrite <- app_assoc.
Qed.

Lemma build_Normal seed calls σ this σ' :
  build seed calls σ = (Normal this, σ') →
  σ' !! this = Some (stored <$> seed :: calls).
Proof.
  unfold build. rewrite (bind_normal _ _ _ _ _ (facade_run σ seed.1 seed.2)).
  intros Hchain. eapply chain_Normal in Hchain; [|apply lookup_insert_eq].
  destruct Hchain as [-> ->]. by destruct seed.
Qed.

(** ** [stringify] of a combined selector *)

Lemma stringify_Combined σ sel1 combinator sel2 s1 s2 :
  stringify sel1 σ = (Normal s1, σ) →
  stringify sel2 σ = (Normal s2, σ) →
  stringify (Combined sel1 combinator sel2) σ
  = (Normal (s1 +:+ " " +:+ combinator +:+ " " +:+ s2), σ).
Proof.
  intros H1 H2. simpl.
  rewrite (bind_normal _ _ _ _ _ H1). by rewrite (bind_normal _ _ _ _ _ H2).
Qed.

(** [stringify] leaves the heap as it found it. *)
Lemma stringify_heap x σ : (stringify x σ).2 = σ.
Proof.
  revert σ. induction x as [this | sel1 IH1 combinator sel2 IH2]; intros σ; simpl.
  - unfold Selector.stringify, mbind, M_bind, get_selector.
    by destruct (σ !! this).
  - unfold mbind at 1, M_bind at 1. specialize (IH1 σ).
    destruct (stringify sel1 σ) as [[s1|e1] σ1]; simpl in IH1; subst σ1; [|done].
    unfold mbind at 1, M_bind at 1. specialize (IH2 σ).
    by destruct (stringify sel2 σ) as [[s2|e2] σ2]; simpl in IH2; subst σ2.
Qed.

Lemma stringify_built σ x : built σ x → ∃ s, stringify x σ = (Normal s, σ).
Proof.
  induction x as [this | sel1 IH1 combinator sel2 IH2]; simpl.
  - intros [selector Hthis]. eexists. by apply stringify_run.
  - intros [Hb1 Hb2]. destruct (IH1 Hb1) as [s1 H1]. destruct (IH2 Hb2) as [s2 H2].
    eexists. by apply stringify_Combined.
Qed.

Lemma reducer_length acc el :
  (String.length acc ≤ String.length (Selector.reducer acc el))%nat.
Proof.
  unfold Selector.reducer.
  repeat (destruct (type el === _)); rewrite ?length_append; lia.
Qed.

(** A push on one instance leaves every built value built, and makes no
    rendering shorter. *)
Lemma stringify_push σ this selector el x s :
  σ !! this = Some selector →
  stringify x σ = (Normal s, σ) →
  ∃ s', stringify x (<[this := selector ++ [el]]> σ)
          = (Normal s', <[this := selector ++ [el]]> σ)
    ∧ (String.length s ≤ String.length s')%nat.
Proof.
  intros Hthis. revert s.
  induction x as [this0 | sel1 IH1 combinator sel2 IH2]; intros s.
  - simpl. destruct (σ !! this0) as [selector0|] eqn:Hthis0.
    + rewrite (stringify_run _ _ _ Hthis0). intros [= <-].
      destruct (decide (this0 = this)) as [->|Hne].
      * replace selector0 with selector by congruence.
        eexists. split; [apply stringify_run, lookup_insert_eq|].
        rewrite reduce_app. simpl. apply reducer_length.
      * eexists. split; [apply stringify_run; by rewrite lookup_insert_ne|done].
    + unfold Selector.stringify. erewrite bind_throw; [done|].
      unfold get_selector. by rewrite Hthis0.
  - simpl. unfold mbind at 1, M_bind at 1.
    destruct (stringify sel1 σ) as [[s1|e1] σ1] eqn:H1; [|done].
    pose proof (stringify_heap sel1 σ) as Hσ1. rewrite H1 in Hσ1. simpl in Hσ1. subst σ1.
    unfold mbind at 1, M_bind at 1.
    destruct (stringify sel2 σ) as [[s2|e2] σ2] eqn:H2; [|done].
    pose proof (stringify_heap sel2 σ) as Hσ2. rewrite H2 in Hσ2. simpl in Hσ2. subst σ2.
    intros [= <-].
    destruct (IH1 _ eq_refl) as (s1' & H1' & Hlen1).
    destruct (IH2 _ eq_refl) as (s2' & H2' & Hlen2).
    eexists. split; [by apply stringify_Combined|].
    rewrite !length_append. lia.
Qed.

(** ** Running a scenario in any heap *)

(** One step of a scenario: the facade call, or an append call on the
    instance the facade call created. *)
Ltac run_facade k value :=
  erewrite bind_normal; [|exact (facade_run _ k value)]; cbv beta.

Ltac run_append k :=
  erewrite bind_normal;
    [|eapply (append_ok _ _ _ k); [apply lookup_insert_eq | reflexivity]];
  cbv beta; rewrite insert_insert_eq.

Ltac run_stringify :=
  erewrite stringify_run; [|apply lookup_insert_eq].

(** ** Successful appends on reachable heaps *)

(** No append of an element succeeds on a selector the interface built:
    the last fragment would have to be an element already. *)
Lemma append_not_element σ this selector k u :
  heap_invariant σ →
  σ !! this = Some selector →
  check selector (type_of k) = Normal u →
  k ≠ KElement.
Proof.
  intros Hinv Hthis Hcheck ->.
  destruct (check_Normal _ _ _ Hcheck) as (lastEl & Hlast & Hrank & Hzero).
  destruct (Hinv _ _ Hthis) as [(Hkinds & _ & _) _].
  assert (lastEl ∈ selector) as Hin by by apply last_Some_elem_of.
  rewrite Forall_forall in Hkinds. destruct (Hkinds _ Hin) as [k' Hk'].
  specialize (Hzero eq_refl). rewrite occurrences_zero in Hzero.
  apply (Hzero _ Hin). rewrite Hk'. f_equal.
  unfold rank in Hrank. rewrite Hk', indexOf_type_of in Hrank.
  destruct k'; simpl in Hrank; (done || lia).
Qed.

Lemma punctuated_nonempty k value :
  k ≠ KElement → (1 ≤ String.length (punctuated (k, value)))%nat.
Proof.
  intros Hk. destruct k; [done| | | | |];
    unfold punctuated; simpl; rewrite length_append; simpl; lia.
Qed.

(** * The claims *)

(** C1. Every Selector reachable through the public facade satisfies the
    Selector invariants: whatever facade and append calls a program has
    made, raising or not, each instance of the heap holds fragments of the
    six kinds only, at most one fragment each of kind element, id and
    pseudo-element, and the ranks of its fragments (their positions in
    [correctOrder]: element 0, id 1, class 2, attr 3, pseudo-class 4,
    pseudo-element 5) are in non-decreasing order. *)
Theorem reachable_selector_invariant σ this selector :
  reachable σ →
  σ !! this = Some selector →
  selector_invariant selector.
Proof.
  intros Hreach Hthis.
  destruct (reachable_invariant σ Hreach this selector Hthis) as [Hinv _].
  exact Hinv.
Qed.

Lemma reachable_selector_invariant_witness :
  selector_invariant [Fragment "id" "main"; Fragment "class" "container"].
Proof.
  apply (reachable_selector_invariant
           (exec (Append KClass "container" 1%positive) (exec (Create KId "main") ∅))
           1%positive).
  - apply reachable_step, reachable_step, reachable_init.
  - vm_compute. reflexivity.
Defined.

(** C2. For every Selector built by a facade call followed by append calls
    that all completed, [stringify()] returns the concatenation, in call
    order and with no separator, of the punctuated text of each call:
    element gives the bare text, id [#text], class [.text], attribute
    [[text]], pseudo-class [:text], pseudo-element [::text]. In particular
    [id('main').class('container').class('editable').stringify()] returns
    [#main.container.editable]. *)
Theorem stringify_concatenates_punctuated :
  (∀ σ seed calls this σ',
     build seed calls σ = (Normal this, σ') →
     Selector.stringify this σ'
     = (Normal (concatenation (punctuated <$> seed :: calls)), σ'))
  ∧ (∀ σ, (scenario_main σ).1 = Normal "#main.container.editable").
Proof.
  split.
  - intros σ seed calls this σ' Hbuild.
    rewrite (stringify_run _ _ _ (build_Normal _ _ _ _ _ Hbuild)).
    by rewrite reduce_stored.
  - intros σ. unfold scenario_main.
    run_facade KId "main". run_append KClass. run_append KClass.
    run_stringify. reflexivity.
Qed.

Lemma stringify_concatenates_punctuated_witness :
  build (KElement, "div") [(KId, "main"); (KAttr, "x"); (KPseudoElement, "after")] ∅
  = (Normal 1%positive,
     {[ 1%positive := [Fragment "element" "div"; Fragment "id" "main";
                       Fragment "attr" "x"; Fragment "pseudo-element" "after"] ]})
  ∧ Selector.stringify 1%positive
      {[ 1%positive := [Fragment "element" "div"; Fragment "id" "main";
                        Fragment "attr" "x"; Fragment "pseudo-element" "after"] ]}
    = (Normal "div#main[x]::after",
       {[ 1%positive := [Fragment "element" "div"; Fragment "id" "main";
                         Fragment "attr" "x"; Fragment "pseudo-element" "after"] ]}).
Proof.
  split.
  - vm_compute. reflexivity.
  - apply (proj1 stringify_concatenates_punctuated ∅ (KElement, "div")
             [(KId, "main"); (KAttr, "x"); (KPseudoElement, "after")]).
    vm_compute. reflexivity.
Defined.

(** C3. For every Selector that already contains a fragment of kind
    element, id or pseudo-element, appending another fragment of that kind
    raises [DuplicateSelectorPartError], whatever fragments lie between the
    stored one and the end of the sequence. In particular appending
    [id('b')] after [id('a')] raises it. *)
Theorem second_single_fragment_raises :
  (∀ σ this selector k value,
     σ !! this = Some selector →
     single k = true →
     (∃ el, el ∈ selector ∧ type el = type_of k) →
     append k value this σ = (Throw DuplicateSelectorPartError, σ))
  ∧ (∀ σ, (scenario_second_id σ).1 = Throw DuplicateSelectorPartError).
Proof.
  split.
  - intros σ this selector k value Hthis Hk Hex.
    eapply append_fail; [done|]. by apply check_duplicate.
  - intros σ. unfold scenario_second_id. run_facade KId "a".
    erewrite (append_fail _ _ _ KId); [done | apply lookup_insert_eq | reflexivity].
Qed.

Lemma second_single_fragment_raises_witness :
  append KElement "span" 1%positive
    {[ 1%positive := [Fragment "element" "div"; Fragment "class" "a";
                      Fragment "class" "b"; Fragment "pseudo-class" "hover"] ]}
  = (Throw DuplicateSelectorPartError,
     {[ 1%positive := [Fragment "element" "div"; Fragment "class" "a";
                       Fragment "class" "b"; Fragment "pseudo-class" "hover"] ]}).
Proof.
  apply (proj1 second_single_fragment_raises _ _
           [Fragment "element" "div"; Fragment "class" "a";
            Fragment "class" "b"; Fragment "pseudo-class" "hover"]).
  - vm_compute. reflexivity.
  - reflexivity.
  - exists (Fragment "element" "div"). split; [apply list_elem_of_here | reflexivity].
Defined.

(** Whether the uniqueness check of [validate] fails can be told from the
    array. *)
Lemma duplicate_cases (selector : list fragment) k :
  (single k = true ∧ ∃ el, el ∈ selector ∧ type el = type_of k)
  ∨ (single k = true → ∀ el, el ∈ selector → type el ≠ type_of k).
Proof.
  destruct (single k); [|by right].
  destruct (List.find (λ el, type el === type_of k) selector) as [el|] eqn:Hfind.
  - left. split; [done|]. apply find_type_Some. by rewrite Hfind.
  - right. intros _ el Hel Hty.
    assert (is_Some (List.find (λ el, type el === type_of k) selector)) as [? Hsome]
      by (apply find_type_Some; eauto).
    congruence.
Qed.

(** C4, as amended. An append to a non-empty Selector raises
    [SelectorOrderError] exactly when the rank of the appended kind is
    strictly less than the rank of the last stored fragment and the
    uniqueness check, which runs first, has not failed: the kind is not one
    of element, id and pseudo-element with a fragment of it already stored.
    An append whose rank is equal to or higher than the rank of the last
    fragment never raises [SelectorOrderError]. In particular appending
    [class('x')] after [pseudoClass('hover')] raises it. *)
Theorem order_error_iff :
  (∀ σ this selector lastEl k value,
     σ !! this = Some selector →
     last selector = Some lastEl →
     (append k value this σ).1 = Throw SelectorOrderError
     ↔ (kind_rank k < rank lastEl)%Z
       ∧ ¬ (single k = true ∧ ∃ el, el ∈ selector ∧ type el = type_of k))
  ∧ (∀ σ this selector lastEl k value,
       σ !! this = Some selector →
       last selector = Some lastEl →
       (rank lastEl ≤ kind_rank k)%Z →
       (append k value this σ).1 ≠ Throw SelectorOrderError)
  ∧ (∀ σ, (scenario_class_after_pseudoClass σ).1 = Throw SelectorOrderError).
Proof.
  assert (∀ σ this selector lastEl k value,
     σ !! this = Some selector →
     last selector = Some lastEl →
     (append k value this σ).1 = Throw SelectorOrderError
     ↔ (kind_rank k < rank lastEl)%Z
       ∧ ¬ (single k = true ∧ ∃ el, el ∈ selector ∧ type el = type_of k)) as Hiff.
  { intros σ this selector lastEl k value Hthis Hlast.
    rewrite (append_run _ _ _ _ _ Hthis).
    destruct (duplicate_cases selector k) as [[Hk Hex] | Hno].
    - rewrite (check_duplicate _ _ Hk Hex). simpl. split; [done|].
      intros [_ Hnot]. by destruct Hnot.
    - rewrite (check_order _ _ _ Hno Hlast).
      destruct (kind_rank k <? rank lastEl)%Z eqn:Hlt; simpl.
      + apply Z.ltb_lt in Hlt. split; [|done]. intros _. split; [done|].
        intros [Hk (el & Hel & Hty)]. by apply (Hno Hk el).
      + apply Z.ltb_ge in Hlt. split; [done|]. intros [Hlt' _]. lia. }
  split; [exact Hiff|]. split.
  - intros σ this selector lastEl k value Hthis Hlast Hle Horder.
    apply (Hiff _ _ _ _ _ _ Hthis Hlast) in Horder as [Hlt _]. lia.
  - intros σ. unfold scenario_class_after_pseudoClass. run_facade KPseudoClass "hover".
    erewrite (append_fail _ _ _ KClass); [done | apply lookup_insert_eq | reflexivity].
Qed.

Lemma order_error_iff_witness :
  (append KId "late" 1%positive
     {[ 1%positive := [Fragment "class" "a"; Fragment "attr" "b"] ]}).1
  = Throw SelectorOrderError
  ↔ (kind_rank KId < rank (Fragment "attr" "b"))%Z
    ∧ ¬ (single KId = true
         ∧ ∃ el, el ∈ [Fragment "class" "a"; Fragment "attr" "b"]
                 ∧ type el = type_of KId).
Proof.
  apply (proj1 order_error_iff
           {[ 1%positive := [Fragment "class" "a"; Fragment "attr" "b"] ]}
           1%positive [Fragment "class" "a"; Fragment "attr" "b"]
           (Fragment "attr" "b") KId "late").
  - vm_compute. reflexivity.
  - reflexivity.
Defined.

(** C4 as stated fails: after [builder.element('a').id('b')] the rank of
    element, 0, is strictly less than the rank of the last fragment, 1, and
    yet [.element('c')] raises [DuplicateSelectorPartError], which is not
    [SelectorOrderError]. *)
Lemma order_error_counterexample :
  build (KElement, "a") [(KId, "b")] ∅ = (Normal 1%positive, heap_a_b)
  ∧ heap_a_b !! 1%positive = Some [Fragment "element" "a"; Fragment "id" "b"]
  ∧ last [Fragment "element" "a"; Fragment "id" "b"] = Some (Fragment "id" "b")
  ∧ (kind_rank KElement < rank (Fragment "id" "b"))%Z
  ∧ append KElement "c" 1%positive heap_a_b = (Throw DuplicateSelectorPartError, heap_a_b)
  ∧ Throw (A := loc) DuplicateSelectorPartError ≠ Throw SelectorOrderError.
Proof.
  repeat split; try (vm_compute; reflexivity). discriminate.
Qed.

(** C5. For every two built selector-like values [A] and [B] and every
    glyph [g], [combine(A, g, B)] raises no error and returns a node whose
    [stringify()] is [A.stringify()], a space, [g], a space and
    [B.stringify()]; with the glyph [+] it is [A.stringify() + " + " +
    B.stringify()]. *)
Theorem combine_stringify σ A combinator B :
  built σ A →
  built σ B →
  ∃ a b,
    stringify A σ = (Normal a, σ)
    ∧ stringify B σ = (Normal b, σ)
    ∧ stringify (cssSelectorBuilder.combine A combinator B) σ
      = (Normal (a +:+ " " +:+ combinator +:+ " " +:+ b), σ)
    ∧ stringify (cssSelectorBuilder.combine A "+" B) σ
      = (Normal (a +:+ " + " +:+ b), σ).
Proof.
  intros HA HB.
  destruct (stringify_built _ _ HA) as [a Ha].
  destruct (stringify_built _ _ HB) as [b Hb].
  exists a, b. repeat split; [done | done | by apply stringify_Combined |].
  unfold cssSelectorBuilder.combine. by rewrite (stringify_Combined _ _ "+" _ _ _ Ha Hb).
Qed.

Lemma combine_stringify_witness :
  ∃ a b,
    stringify (Combined (Ref 1%positive) "~" (Ref 2%positive))
      (<[2%positive := [Fragment "element" "td"]]> heap_a_b)
    = (Normal a, <[2%positive := [Fragment "element" "td"]]> heap_a_b)
    ∧ stringify (Ref 1%positive) (<[2%positive := [Fragment "element" "td"]]> heap_a_b)
      = (Normal b, <[2%positive := [Fragment "element" "td"]]> heap_a_b)
    ∧ stringify
        (cssSelectorBuilder.combine
           (Combined (Ref 1%positive) "~" (Ref 2%positive)) ">" (Ref 1%positive))
        (<[2%positive := [Fragment "element" "td"]]> heap_a_b)
      = (Normal (a +:+ " " +:+ ">" +:+ " " +:+ b),
         <[2%positive := [Fragment "element" "td"]]> heap_a_b)
    ∧ stringify
        (cssSelectorBuilder.combine
           (Combined (Ref 1%positive) "~" (Ref 2%positive)) "+" (Ref 1%positive))
        (<[2%positive := [Fragment "element" "td"]]> heap_a_b)
      = (Normal (a +:+ " + " +:+ b),
         <[2%positive := [Fragment "element" "td"]]> heap_a_b).
Proof.
  apply (combine_stringify (<[2%positive := [Fragment "element" "td"]]> heap_a_b)
           (Combined (Ref 1%positive) "~" (Ref 2%positive)) ">" (Ref 1%positive)).
  - split; eexists; vm_compute; reflexivity.
  - eexists; vm_compute; reflexivity.
Defined.

(** C6. When an append call fails, with [DuplicateSelectorPartError], with
    [SelectorOrderError] or with any other error, the heap is the heap of
    before the call: the rejected fragment is not appended, the stored
    fragment sequence is what it was, and a later [stringify()] of any
    selector-like value returns what it returned before. *)
Theorem failed_append_changes_nothing σ this k value e σ' :
  append k value this σ = (Throw e, σ') →
  σ' = σ
  ∧ σ' !! this = σ !! this
  ∧ ∀ x, (stringify x σ').1 = (stringify x σ).1.
Proof.
  intros Happend. assert (σ' = σ) as ->; [|done].
  destruct (σ !! this) as [selector|] eqn:Hthis.
  - rewrite (append_run _ _ _ _ _ Hthis) in Happend.
    destruct (check selector (type_of k)); congruence.
  - rewrite (append_no_instance _ _ _ _ Hthis) in Happend. congruence.
Qed.

Lemma failed_append_changes_nothing_witness :
  heap_a_b = heap_a_b
  ∧ heap_a_b !! 1%positive = heap_a_b !! 1%positive
  ∧ ∀ x, (stringify x heap_a_b).1 = (stringify x heap_a_b).1.
Proof.
  apply (failed_append_changes_nothing heap_a_b 1%positive KId "c"
           DuplicateSelectorPartError heap_a_b).
  vm_compute. reflexivity.
Defined.

(** C7, as amended. The public facade exposes exactly the seven operations
    [element], [id], [class], [attr], [pseudoClass], [pseudoElement] and
    [combine]: the attribute operation is named [attr]. [attr(text)]
    returns a new Selector holding the one attribute fragment, and
    [element('a').attr(href_png).pseudoClass('focus').stringify()], with
    [href_png] the text of the scenario, returns that text between
    [a[] and []:focus]. *)
Theorem facade_operations :
  cssSelectorBuilder_properties.*1
  = ["element"; "id"; "class"; "attr"; "pseudoClass"; "pseudoElement"; "combine"]
  ∧ (∀ text (σ : heap), ∃ this,
       σ !! this = None
       ∧ call_facade "attr" text σ = (Normal this, <[this := [Fragment "attr" text]]> σ))
  ∧ (∀ σ, (scenario_png "attr" σ).1 = Normal ("a[" +:+ href_png +:+ "]:focus")).
Proof.
  split; [reflexivity|]. split.
  - intros text σ. exists (fresh (dom σ)). split; [apply fresh_no_instance | reflexivity].
  - intros σ. unfold scenario_png.
    run_facade KElement "a". run_append KAttr. run_append KPseudoClass.
    run_stringify. reflexivity.
Qed.

(** C7 as stated fails: no property of the facade and no method of a
    Selector is named [attribute], and the scenario written with that name
    ends in a [TypeError] instead of returning a string. *)
Lemma attribute_counterexample :
  get_property cssSelectorBuilder_properties "attribute" = None
  ∧ get_property Selector_prototype "attribute" = None
  ∧ (call_facade "attribute" "href" ∅).1 = Throw TypeError
  ∧ (scenario_png "attribute" ∅).1 = Throw TypeError.
Proof. repeat split; vm_compute; reflexivity. Qed.

(** C8. When [JSON.parse] fails on the text given to [fromJSON], the
    failure it throws is what [fromJSON] throws: nothing catches it, no
    recovery is attempted and [Object.create] is not reached, so the object
    store is unchanged. The [SyntaxError] of a malformed text is an error
    distinct from the two errors of the selector builder. *)
Theorem fromJSON_propagates_parse_failure {Value Descriptors Store : Type}
    (JSON_parse : string → completion Value)
    (Object_getOwnPropertyDescriptors : Value → completion Descriptors)
    (Object_create : Value → Descriptors → Store → completion Value * Store)
    (proto : Value) (json : string) (st : Store) (e : exn) :
  JSON_parse json = Throw e →
  fromJSON JSON_parse Object_getOwnPropertyDescriptors Object_create proto json st
  = (Throw e, st)
  ∧ ∀ message,
      SyntaxError message ≠ DuplicateSelectorPartError
      ∧ SyntaxError message ≠ SelectorOrderError.
Proof.
  intros Hparse. split; [|done]. unfold fromJSON. by rewrite Hparse.
Qed.

Lemma fromJSON_propagates_parse_failure_witness :
  fromJSON
    (λ json, if json === "{}" then Normal [] else Throw (SyntaxError "Unexpected token"))
    (λ obj : list (string * string), Normal obj)
    (λ proto descriptors (created : nat), (Normal (proto ++ descriptors), S created))
    [] "{oops" 0%nat
  = (Throw (SyntaxError "Unexpected token"), 0%nat)
  ∧ ∀ message,
      SyntaxError message ≠ DuplicateSelectorPartError
      ∧ SyntaxError message ≠ SelectorOrderError.
Proof.
  apply (fromJSON_propagates_parse_failure
           (λ json, if json === "{}" then Normal [] else Throw (SyntaxError "Unexpected token"))
           (λ obj : list (string * string), Normal obj)
           (λ proto descriptors (created : nat), (Normal (proto ++ descriptors), S created))
           [] "{oops" 0%nat (SyntaxError "Unexpected token")).
  reflexivity.
Defined.

(** C9. A combined selector holds references to its children and renders
    them anew at every call. Let [c = combine(L, g, R)] with [L] a Selector
    of a reachable heap; once a fragment has been appended to [L] with
    success, [L.stringify()] is its former value followed by the punctuated
    text of the new fragment, and [c.stringify()] is that new value, a
    space, [g], a space and [R.stringify()]: it is not the string [c] gave
    before the append. *)
Theorem combined_selector_follows_appends σ L combinator R k value this' σ' :
  reachable σ →
  built σ R →
  append k value L σ = (Normal this', σ') →
  ∃ sL sL' sR',
    Selector.stringify L σ = (Normal sL, σ)
    ∧ Selector.stringify L σ' = (Normal sL', σ')
    ∧ sL' = sL +:+ punctuated (k, value)
    ∧ stringify R σ' = (Normal sR', σ')
    ∧ stringify (cssSelectorBuilder.combine (Ref L) combinator R) σ'
      = (Normal (sL' +:+ " " +:+ combinator +:+ " " +:+ sR'), σ')
    ∧ (stringify (cssSelectorBuilder.combine (Ref L) combinator R) σ').1
      ≠ (stringify (cssSelectorBuilder.combine (Ref L) combinator R) σ).1.
Proof.
  intros Hreach HR Happend.
  destruct (σ !! L) as [selector|] eqn:HL;
    [|by rewrite (append_no_instance _ _ _ _ HL) in Happend].
  rewrite (append_run _ _ _ _ _ HL) in Happend.
  destruct (check selector (type_of k)) as [u|e] eqn:Hcheck; [|done].
  injection Happend as <- <-.
  assert (k ≠ KElement) as Hk
    by (eapply append_not_element; [by apply reachable_invariant | done..]).
  destruct (stringify_built _ _ HR) as [sR HsR].
  destruct (stringify_push _ _ _ (Fragment (type_of k) value) _ _ HL HsR)
    as (sR' & HsR' & Hlen).
  pose proof (stringify_run _ _ _ HL) as HsL.
  pose proof (stringify_run (<[L := selector ++ [Fragment (type_of k) value]]> σ) L _
                (lookup_insert_eq _ _ _)) as HsL'.
  rewrite reduce_app in HsL'. simpl in HsL'.
  rewrite (reducer_stored _ (k, value)) in HsL'.
  eexists _, _, sR'. repeat split; [exact HsL | exact HsL' | exact HsR' | |].
  - by apply (stringify_Combined _ (Ref L)).
  - unfold cssSelectorBuilder.combine.
    rewrite (stringify_Combined _ (Ref L) combinator R _ _ HsL' HsR').
    rewrite (stringify_Combined _ (Ref L) combinator R _ _ HsL HsR).
    simpl. intros [= Heq]. apply (f_equal String.length) in Heq.
    rewrite !length_append in Heq.
    pose proof (punctuated_nonempty k value Hk). lia.
Qed.

Lemma combined_selector_follows_appends_witness :
  ∃ sL sL' sR',
    Selector.stringify 1%positive (exec (Create KElement "p") (exec (Create KId "main") ∅))
    = (Normal sL, exec (Create KElement "p") (exec (Create KId "main") ∅))
    ∧ Selector.stringify 1%positive
        {[ 1%positive := [Fragment "id" "main"; Fragment "class" "wide"];
           2%positive := [Fragment "element" "p"] ]}
      = (Normal sL',
         {[ 1%positive := [Fragment "id" "main"; Fragment "class" "wide"];
            2%positive := [Fragment "element" "p"] ]})
    ∧ sL' = sL +:+ punctuated (KClass, "wide")
    ∧ stringify (Ref 2%positive)
        {[ 1%positive := [Fragment "id" "main"; Fragment "class" "wide"];
           2%positive := [Fragment "element" "p"] ]}
      = (Normal sR',
         {[ 1%positive := [Fragment "id" "main"; Fragment "class" "wide"];
            2%positive := [Fragment "element" "p"] ]})
    ∧ stringify (cssSelectorBuilder.combine (Ref 1%positive) ">" (Ref 2%positive))
        {[ 1%positive := [Fragment "id" "main"; Fragment "class" "wide"];
           2%positive := [Fragment "element" "p"] ]}
      = (Normal (sL' +:+ " " +:+ ">" +:+ " " +:+ sR'),
         {[ 1%positive := [Fragment "id" "main"; Fragment "class" "wide"];
            2%positive := [Fragment "element" "p"] ]})
    ∧ (stringify (cssSelectorBuilder.combine (Ref 1%positive) ">" (Ref 2%positive))
         {[ 1%positive := [Fragment "id" "main"; Fragment "class" "wide"];
            2%positive := [Fragment "element" "p"] ]}).1
      ≠ (stringify (cssSelectorBuilder.combine (Ref 1%positive) ">" (Ref 2%positive))
           (exec (Create KElement "p") (exec (Create KId "main") ∅))).1.
Proof.
  apply (combined_selector_follows_appends
           (exec (Create KElement "p") (exec (Create KId "main") ∅))
           1%positive ">" (Ref 2%positive) KClass "wide" 1%positive).
  - apply reachable_step, reachable_step, reachable_init.
  - eexists. vm_compute. reflexivity.
  - vm_compute. reflexivity.
Defined.

(** C10. Every Selector created through a facade entry point is seeded
    with exactly one fragment, and no call ever shortens the fragment
    sequence of an instance, so the sequence of an instance of a reachable
    heap is never empty: it has a last fragment, and the read of the type
    of that fragment in [validate] never raises the [TypeError] of a
    missing last element. *)
Theorem last_fragment_always_exists σ this selector :
  reachable σ →
  σ !! this = Some selector →
  (1 ≤ length selector)%nat
  ∧ is_Some (last selector)
  ∧ (∀ type', (Selector.validate type' this σ).1 ≠ Throw TypeError)
  ∧ (∀ k value, (append k value this σ).1 ≠ Throw TypeError)
  ∧ (∀ k value, ∃ this0,
       σ !! this0 = None
       ∧ facade k value σ = (Normal this0, <[this0 := [stored (k, value)]]> σ))
  ∧ (∀ a, ∃ selector',
       exec a σ !! this = Some selector'
       ∧ (length selector ≤ length selector')%nat).
Proof.
  intros Hreach Hthis.
  destruct (reachable_invariant _ Hreach _ _ Hthis) as [_ Hne].
  assert (∀ type', check selector type' ≠ Throw TypeError) as Hcheck.
  { intros type' Hthrow. apply check_Throw in Hthrow as [?|[?|[_ ?]]]; done. }
  repeat split.
  - destruct selector; [done | simpl; lia].
  - destruct (last selector) eqn:Hlast; [done|]. by apply last_None in Hlast.
  - intros type'. rewrite (validate_check _ _ _ _ Hthis). simpl. apply Hcheck.
  - intros k value. rewrite (append_run _ _ _ _ _ Hthis).
    destruct (check selector (type_of k)) eqn:Hc; simpl; [done|].
    intros [= ->]. by apply (Hcheck (type_of k)).
  - intros k value. exists (fresh (dom σ)).
    split; [apply fresh_no_instance | apply facade_run].
  - intros a. by apply exec_grows.
Qed.

Lemma last_fragment_always_exists_witness :
  (1 ≤ length [Fragment "element" "a"; Fragment "id" "b"])%nat
  ∧ is_Some (last [Fragment "element" "a"; Fragment "id" "b"])
  ∧ (∀ type',
       (Selector.validate type' 1%positive
          (exec (Append KId "b" 1%positive) (exec (Create KElement "a") ∅))).1
       ≠ Throw TypeError)
  ∧ (∀ k value,
       (append k value 1%positive
          (exec (Append KId "b" 1%positive) (exec (Create KElement "a") ∅))).1
       ≠ Throw TypeError)
  ∧ (∀ k value, ∃ this0,
       exec (Append KId "b" 1%positive) (exec (Create KElement "a") ∅) !! this0 = None
       ∧ facade k value (exec (Append KId "b" 1%positive) (exec (Create KElement "a") ∅))
         = (Normal this0,
            <[this0 := [stored (k, value)]]>
              (exec (Append KId "b" 1%positive) (exec (Create KElement "a") ∅))))
  ∧ (∀ a, ∃ selector',
       exec a (exec (Append KId "b" 1%positive) (exec (Create KElement "a") ∅))
         !! 1%positive = Some selector'
       ∧ (length [Fragment "element" "a"; Fragment "id" "b"] ≤ length selector')%nat).
Proof.
  apply (last_fragment_always_exists
           (exec (Append KId "b" 1%positive) (exec (Create KElement "a") ∅))
           1%positive).
  - apply reachable_step, reachable_step, reachable_init.
  - vm_compute. reflexivity.
Defined.


(** * Further properties of the selector builder *)

(** ** The last fragment of a built selector *)

Lemma kind_rank_inj k1 k2 : kind_rank k1 = kind_rank k2 → k1 = k2.
Proof. by destruct k1, k2. Qed.

Lemma rank_of_type el k : type el = type_of k → rank el = kind_rank k.
Proof. intros Hty. unfold rank. by rewrite Hty, indexOf_type_of. Qed.

(** In a sequence of non-decreasing ranks no rank exceeds the last one. *)
Lemma sorted_last_max (selector : list fragment) lastEl el :
  Sorted Z.le (rank <$> selector) →
  last selector = Some lastEl →
  el ∈ selector →
  (rank el ≤ rank lastEl)%Z.
Proof.
  intros Hsorted Hlast Hel.
  apply last_Some in Hlast as [selector' ->].
  apply elem_of_app in Hel as [Hel | Hel%list_elem_of_singleton]; [|subst; lia].
  apply Sorted_StronglySorted in Hsorted; [|apply _].
  rewrite fmap_app in Hsorted. apply StronglySorted_app in Hsorted as (Hle & _ & _).
  apply Hle; [by apply list_elem_of_fmap_2 | apply list_elem_of_here].
Qed.

Lemma check_follows_true selector lastEl kl k :
  selector_invariant selector →
  last selector = Some lastEl →
  type lastEl = type_of kl →
  follows kl k = true →
  check selector (type_of k) = Normal tt.
Proof.
  intros (_ & _ & Hsorted) Hlast Hty Hfollows.
  pose proof (rank_of_type _ _ Hty) as Hrank.
  unfold follows in Hfollows.
  rewrite (check_order selector k lastEl); [| |done].
  - rewrite Hrank. destruct (kind_rank k <? kind_rank kl)%Z eqn:Hlt; [|done].
    apply Z.ltb_lt in Hlt.
    apply orb_true_iff in Hfollows as [Hf%Z.ltb_lt | [Hf%Z.eqb_eq _]%andb_true_iff]; lia.
  - intros Hk el Hel Hel_ty.
    pose proof (sorted_last_max _ _ _ Hsorted Hlast Hel) as Hle.
    rewrite (rank_of_type _ _ Hel_ty), Hrank in Hle.
    apply orb_true_iff in Hfollows as [Hf%Z.ltb_lt | [_ Hf]%andb_true_iff]; [lia|].
    by rewrite Hk in Hf.
Qed.

Lemma check_follows_false selector lastEl kl k :
  last selector = Some lastEl →
  type lastEl = type_of kl →
  follows kl k = false →
  ∃ e, check selector (type_of k) = Throw e
       ∧ (e = DuplicateSelectorPartError ∨ e = SelectorOrderError).
Proof.
  intros Hlast Hty Hfollows.
  pose proof (rank_of_type _ _ Hty) as Hrank.
  unfold follows in Hfollows.
  apply orb_false_iff in Hfollows as [Hnlt%Z.ltb_ge Hneq].
  destruct (duplicate_cases selector k) as [[Hk Hex] | Hno].
  - exists DuplicateSelectorPartError. split; [by apply check_duplicate | by left].
  - exists SelectorOrderError. split; [|by right].
    rewrite (check_order _ _ _ Hno Hlast), Hrank.
    destruct (kind_rank k <? kind_rank kl)%Z eqn:Hlt; [done|].
    apply Z.ltb_ge in Hlt. assert (kind_rank kl = kind_rank k) as Heq by lia.
    apply kind_rank_inj in Heq as ->. rewrite Z.eqb_refl in Hneq. simpl in Hneq.
    apply negb_false_iff in Hneq. exfalso.
    apply (Hno Hneq lastEl); [by apply last_Some_elem_of | done].
Qed.

(** Every instance of a reachable heap ends with a fragment of one of the
    six kinds. *)
Lemma reachable_last σ this selector :
  reachable σ →
  σ !! this = Some selector →
  selector_invariant selector
  ∧ ∃ lastEl kl, last selector = Some lastEl ∧ type lastEl = type_of kl.
Proof.
  intros Hreach Hthis.
  destruct (reachable_invariant _ Hreach _ _ Hthis) as [Hinv Hne].
  split; [done|].
  destruct (last selector) as [lastEl|] eqn:Hlast; [|by apply last_None in Hlast].
  destruct Hinv as (Hkinds & _ & _). rewrite Forall_forall in Hkinds.
  destruct (Hkinds lastEl) as [kl Hkl]; [by apply last_Some_elem_of|].
  by exists lastEl, kl.
Qed.

(** ** One append call *)

(** X1. An append call that completes returns the instance it was called
    on, has pushed its one fragment at the end of the array of that
    instance, and has left every other instance as it was. *)
Theorem append_returns_this σ this k value this' σ' :
  append k value this σ = (Normal this', σ') →
  this' = this
  ∧ (∃ selector,
       σ !! this = Some selector
       ∧ σ' !! this = Some (selector ++ [stored (k, value)]))
  ∧ (∀ other, other ≠ this → σ' !! other = σ !! other).
Proof.
  intros Happend.
  destruct (σ !! this) as [selector|] eqn:Hthis;
    [|by rewrite (append_no_instance _ _ _ _ Hthis) in Happend].
  rewrite (append_run _ _ _ _ _ Hthis) in Happend.
  destruct (check selector (type_of k)); [|done].
  injection Happend as <- <-. split; [done|]. split.
  - exists selector. split; [done | apply lookup_insert_eq].
  - intros other Hother. by apply lookup_insert_ne.
Qed.

Lemma append_returns_this_witness :
  1%positive = 1%positive
  ∧ (∃ selector,
       heap_a_b !! 1%positive = Some selector
       ∧ <[1%positive := [Fragment "element" "a"; Fragment "id" "b"; Fragment "class" "c"]]>
           heap_a_b !! 1%positive
         = Some (selector ++ [stored (KClass, "c")]))
  ∧ (∀ other, other ≠ 1%positive →
       <[1%positive := [Fragment "element" "a"; Fragment "id" "b"; Fragment "class" "c"]]>
         heap_a_b !! other
       = heap_a_b !! other).
Proof.
  apply (append_returns_this heap_a_b 1%positive KClass "c" 1%positive).
  vm_compute. reflexivity.
Defined.

(** X2. On a selector the interface built, whose last fragment is of kind
    [kl], an append of kind [k] completes exactly when [k] may follow [kl]:
    its rank is strictly higher, or it is the same kind and one of class,
    attr and pseudo-class. Otherwise the call raises one of the two errors
    of [validate] and the heap stays as it was. *)
Theorem append_follows σ this selector lastEl kl k value :
  reachable σ →
  σ !! this = Some selector →
  last selector = Some lastEl →
  type lastEl = type_of kl →
  (follows kl k = true →
     append k value this σ
     = (Normal this, <[this := selector ++ [stored (k, value)]]> σ))
  ∧ (follows kl k = false →
       ∃ e, append k value this σ = (Throw e, σ)
            ∧ (e = DuplicateSelectorPartError ∨ e = SelectorOrderError)).
Proof.
  intros Hreach Hthis Hlast Hty.
  destruct (reachable_last _ _ _ Hreach Hthis) as [Hinv _]. split.
  - intros Hfollows. apply append_ok; [done|]. by eapply check_follows_true.
  - intros Hfollows.
    destruct (check_follows_false selector _ _ k Hlast Hty Hfollows) as (e & Hcheck & He).
    exists e. split; [by eapply append_fail | done].
Qed.

Lemma append_follows_witness :
  (follows KId KClass = true →
     append KClass "c" 1%positive (exec (Append KId "b" 1%positive) (exec (Create KElement "a") ∅))
     = (Normal 1%positive,
        <[1%positive := [Fragment "element" "a"; Fragment "id" "b"] ++ [stored (KClass, "c")]]>
          (exec (Append KId "b" 1%positive) (exec (Create KElement "a") ∅))))
  ∧ (follows KId KClass = false →
       ∃ e, append KClass "c" 1%positive
              (exec (Append KId "b" 1%positive) (exec (Create KElement "a") ∅))
            = (Throw e, exec (Append KId "b" 1%positive) (exec (Create KElement "a") ∅))
            ∧ (e = DuplicateSelectorPartError ∨ e = SelectorOrderError)).
Proof.
  apply (append_follows
           (exec (Append KId "b" 1%positive) (exec (Create KElement "a") ∅))
           1%positive [Fragment "element" "a"; Fragment "id" "b"] (Fragment "id" "b") KId KClass "c").
  - apply reachable_step, reachable_step, reachable_init.
  - vm_compute. reflexivity.
  - reflexivity.
  - reflexivity.
Defined.

(** X3. The method [element] of a Selector never completes on a selector
    the interface built: it raises [DuplicateSelectorPartError] when the
    selector holds an element fragment and [SelectorOrderError] when it
    holds none, and the selector stays as it was. An element can only be
    the fragment the facade seeds a selector with. *)
Theorem element_append_always_raises σ this selector value :
  reachable σ →
  σ !! this = Some selector →
  ∃ e, Selector.element value this σ = (Throw e, σ)
       ∧ (((∃ el, el ∈ selector ∧ type el = "element")
           ∧ e = DuplicateSelectorPartError)
          ∨ ((∀ el, el ∈ selector → type el ≠ "element")
             ∧ e = SelectorOrderError)).
Proof.
  intros Hreach Hthis.
  destruct (reachable_last _ _ _ Hreach Hthis) as [_ (lastEl & kl & Hlast & Hty)].
  change (Selector.element value this) with (append KElement value this).
  destruct (duplicate_cases selector KElement) as [[_ Hex] | Hno].
  - exists DuplicateSelectorPartError. split; [|by left].
    eapply append_fail; [done|]. by apply check_duplicate.
  - specialize (Hno eq_refl). exists SelectorOrderError. split; [|by right].
    eapply append_fail; [done|].
    rewrite (check_order selector KElement lastEl); [|done..].
    rewrite (rank_of_type _ _ Hty).
    assert (kl ≠ KElement) as Hkl.
    { intros ->. apply (Hno lastEl); [by apply last_Some_elem_of | done]. }
    by destruct kl.
Qed.

Lemma element_append_always_raises_witness :
  ∃ e, Selector.element "div" 1%positive
         (exec (Append KClass "c" 1%positive) (exec (Create KId "main") ∅))
       = (Throw e, exec (Append KClass "c" 1%positive) (exec (Create KId "main") ∅))
       ∧ (((∃ el, el ∈ [Fragment "id" "main"; Fragment "class" "c"] ∧ type el = "element")
           ∧ e = DuplicateSelectorPartError)
          ∨ ((∀ el, el ∈ [Fragment "id" "main"; Fragment "class" "c"] → type el ≠ "element")
             ∧ e = SelectorOrderError)).
Proof.
  apply (element_append_always_raises
           (exec (Append KClass "c" 1%positive) (exec (Create KId "main") ∅)) 1%positive).
  - apply reachable_step, reachable_step, reachable_init.
  - vm_compute. reflexivity.
Defined.

(** X4. Nothing can be appended after a pseudo-element: on a selector
    whose last fragment is a pseudo-element every append call raises one of
    the two errors of [validate], and the selector stays as it was. *)
Theorem nothing_follows_pseudo_element σ this selector lastEl k value :
  σ !! this = Some selector →
  last selector = Some lastEl →
  type lastEl = "pseudo-element" →
  ∃ e, append k value this σ = (Throw e, σ)
       ∧ (e = DuplicateSelectorPartError ∨ e = SelectorOrderError).
Proof.
  intros Hthis Hlast Hty.
  destruct (check_follows_false selector lastEl KPseudoElement k Hlast Hty)
    as (e & Hcheck & He); [by destruct k|].
  exists e. split; [by eapply append_fail | done].
Qed.

Lemma nothing_follows_pseudo_element_witness :
  ∃ e, append KPseudoClass "hover" 1%positive
         {[ 1%positive := [Fragment "class" "a"; Fragment "pseudo-element" "after"] ]}
       = (Throw e, {[ 1%positive := [Fragment "class" "a"; Fragment "pseudo-element" "after"] ]})
       ∧ (e = DuplicateSelectorPartError ∨ e = SelectorOrderError).
Proof.
  apply (nothing_follows_pseudo_element _ _
           [Fragment "class" "a"; Fragment "pseudo-element" "after"]
           (Fragment "pseudo-element" "after")).
  - vm_compute. reflexivity.
  - reflexivity.
  - reflexivity.
Defined.

(** ** Whole chains *)

Lemma accepted_from_app_false k ks ks' :
  accepted_from k ks = false → accepted_from k (ks ++ ks') = false.
Proof.
  revert k. induction ks as [|k' ks IH]; intros k; simpl; [done|].
  destruct (follows k k'); simpl; [apply IH | done].
Qed.

(** A chain on a selector the interface built either is accepted and
    pushes the fragments of all its calls, or stops at its first call that
    may not follow, with the fragments of the calls before it pushed. *)
Lemma chain_outcome calls σ this selector lastEl kl :
  σ !! this = Some selector →
  selector_invariant selector →
  last selector = Some lastEl →
  type lastEl = type_of kl →
  (accepted_from kl calls.*1 = true
   ∧ chain calls this σ = (Normal this, <[this := selector ++ (stored <$> calls)]> σ))
  ∨ (∃ passed bad rest e,
       calls = passed ++ bad :: rest
       ∧ accepted_from kl passed.*1 = true
       ∧ accepted_from kl (passed ++ [bad]).*1 = false
       ∧ (e = DuplicateSelectorPartError ∨ e = SelectorOrderError)
       ∧ chain calls this σ = (Throw e, <[this := selector ++ (stored <$> passed)]> σ)).
Proof.
  revert σ selector lastEl kl.
  induction calls as [|[k value] calls IH]; intros σ selector lastEl kl Hthis Hinv Hlast Hty.
  - left. split; [done|]. simpl. rewrite app_nil_r. by rewrite insert_id.
  - destruct (follows kl k) eqn:Hfollows.
    + pose proof (check_follows_true _ _ _ _ Hinv Hlast Hty Hfollows) as Hcheck.
      pose proof (append_ok _ _ _ _ value Hthis Hcheck) as Happend.
      destruct (IH (<[this := selector ++ [stored (k, value)]]> σ)
                  (selector ++ [stored (k, value)]) (stored (k, value)) k)
        as [[Hacc Hchain] | (passed & bad & rest & e & -> & Hacc & Hbad & He & Hchain)].
      * apply lookup_insert_eq.
      * by eapply invariant_append.
      * apply last_snoc.
      * done.
      * left. split; [simpl; by rewrite Hfollows|].
        simpl. rewrite (bind_normal _ _ _ _ _ Happend), Hchain.
        by rewrite insert_insert_eq, <- app_assoc.
      * right. exists ((k, value) :: passed), bad, rest, e.
        split; [done|]. split; [simpl; by rewrite Hfollows|].
        split; [simpl; by rewrite Hfollows|]. split; [done|].
        simpl. rewrite (bind_normal _ _ _ _ _ Happend), Hchain.
        by rewrite insert_insert_eq, <- app_assoc.
    + destruct (check_follows_false selector _ _ k Hlast Hty Hfollows) as (e & Hcheck & He).
      right. exists [], (k, value), calls, e.
      split; [done|]. split; [done|]. split; [simpl; by rewrite Hfollows|]. split; [done|].
      simpl. rewrite (bind_throw _ _ _ _ _ (append_fail _ _ _ _ value _ Hthis Hcheck)).
      rewrite app_nil_r. by rewrite insert_id.
Qed.

Lemma build_outcome σ seed calls :
  (accepted_from seed.1 calls.*1 = true
   ∧ build seed calls σ
     = (Normal (fresh (dom σ)), <[fresh (dom σ) := stored <$> seed :: calls]> σ))
  ∨ (∃ passed bad rest e,
       calls = passed ++ bad :: rest
       ∧ accepted_from seed.1 passed.*1 = true
       ∧ accepted_from seed.1 (passed ++ [bad]).*1 = false
       ∧ (e = DuplicateSelectorPartError ∨ e = SelectorOrderError)
       ∧ build seed calls σ
         = (Throw e, <[fresh (dom σ) := stored <$> seed :: passed]> σ)).
Proof.
  unfold build. rewrite (bind_normal _ _ _ _ _ (facade_run σ seed.1 seed.2)).
  destruct (chain_outcome calls
              (<[fresh (dom σ) := [Fragment (type_of seed.1) seed.2]]> σ)
              (fresh (dom σ)) [Fragment (type_of seed.1) seed.2]
              (Fragment (type_of seed.1) seed.2) seed.1)
    as [[Hacc Hchain] | (passed & bad & rest & e & -> & Hacc & Hbad & He & Hchain)].
  - apply lookup_insert_eq.
  - apply invariant_seed.
  - done.
  - done.
  - left. split; [done|]. rewrite Hchain, insert_insert_eq. by destruct seed.
  - right. exists passed, bad, rest, e. repeat (split; [done|]).
    rewrite Hchain, insert_insert_eq. by destruct seed.
Qed.

(** X5. The chains the builder accepts: a facade call followed by append
    calls completes exactly when each call may follow the one before it,
    that is when its kind has a strictly higher rank or is the same kind
    and one of class, attr and pseudo-class. The builder accepts the
    sequences of the form element, id, classes, attrs, pseudo-classes,
    pseudo-element, each part optional, and no other. *)
Theorem build_completes_iff σ seed calls :
  (∃ this σ', build seed calls σ = (Normal this, σ'))
  ↔ accepted_from seed.1 calls.*1 = true.
Proof.
  destruct (build_outcome σ seed calls)
    as [[Hacc Hbuild] | (passed & bad & rest & e & -> & Hacc & Hbad & He & Hbuild)].
  - split; [done|]. intros _. eauto.
  - rewrite Hbuild. split; [by intros (? & ? & ?)|].
    intros Hall. exfalso.
    change (passed ++ bad :: rest) with (passed ++ [bad] ++ rest) in Hall.
    rewrite app_assoc, fmap_app in Hall.
    by rewrite (accepted_from_app_false _ _ _ Hbad) in Hall.
Qed.

(** X6. A chain that raises stops at its first call that may not follow the
    one before it. The error is one of the two errors of [validate], never
    a [TypeError], and the selector is left holding the seed and the
    fragments of the calls made before the rejected one: the calls of a
    chain mutate the selector one at a time. *)
Theorem build_failure_keeps_prefix σ seed calls e σ' :
  build seed calls σ = (Throw e, σ') →
  (e = DuplicateSelectorPartError ∨ e = SelectorOrderError)
  ∧ ∃ passed bad rest,
      calls = passed ++ bad :: rest
      ∧ accepted_from seed.1 passed.*1 = true
      ∧ accepted_from seed.1 (passed ++ [bad]).*1 = false
      ∧ σ' = <[fresh (dom σ) := stored <$> seed :: passed]> σ.
Proof.
  intros Hthrow.
  destruct (build_outcome σ seed calls)
    as [[Hacc Hbuild] | (passed & bad & rest & e0 & Hcalls & Hacc & Hbad & He & Hbuild)].
  - congruence.
  - rewrite Hbuild in Hthrow. injection Hthrow as <- <-.
    split; [done|]. by exists passed, bad, rest.
Qed.

Lemma build_failure_keeps_prefix_witness :
  (DuplicateSelectorPartError = DuplicateSelectorPartError
   ∨ DuplicateSelectorPartError = SelectorOrderError)
  ∧ ∃ passed bad rest,
      [(KClass, "b"); (KId, "c"); (KAttr, "d")] = passed ++ bad :: rest
      ∧ accepted_from (KId, "a").1 passed.*1 = true
      ∧ accepted_from (KId, "a").1 (passed ++ [bad]).*1 = false
      ∧ ({[ 1%positive := [Fragment "id" "a"; Fragment "class" "b"] ]} : heap)
        = <[fresh (dom (∅ : heap)) := stored <$> (KId, "a") :: passed]> ∅.
Proof.
  apply (build_failure_keeps_prefix ∅ (KId, "a") [(KClass, "b"); (KId, "c"); (KAttr, "d")]).
  vm_compute. reflexivity.
Defined.

(** X7. Building a selector, whether the chain completes or raises, leaves
    every instance that existed before as it was: selectors created by
    separate facade calls share nothing. *)
Theorem build_leaves_other_selectors σ seed calls other selector :
  σ !! other = Some selector →
  (build seed calls σ).2 !! other = Some selector.
Proof.
  intros Hother.
  assert (fresh (dom σ) ≠ other) as Hne.
  { intros Heq. pose proof (fresh_no_instance σ) as Hfresh. rewrite Heq in Hfresh. congruence. }
  destruct (build_outcome σ seed calls)
    as [[_ Hbuild] | (passed & bad & rest & e & _ & _ & _ & _ & Hbuild)];
    rewrite Hbuild; simpl; by rewrite lookup_insert_ne.
Qed.

Lemma build_leaves_other_selectors_witness :
  (build (KClass, "x") [(KElement, "y")] heap_a_b).2 !! 1%positive
  = Some [Fragment "element" "a"; Fragment "id" "b"].
Proof.
  apply (build_leaves_other_selectors heap_a_b (KClass, "x") [(KElement, "y")] 1%positive).
  vm_compute. reflexivity.
Defined.

(** ** Every built selector spells an accepted chain *)

Lemma invariant_tail el selector :
  selector_invariant (el :: selector) → selector_invariant selector.
Proof.
  intros (Hkinds & Hsingle & Hsorted). repeat split.
  - by apply Forall_cons in Hkinds as [_ ?].
  - intros k Hk. specialize (Hsingle k Hk). unfold occurrences in *.
    rewrite filter_cons in Hsingle. case_decide; simpl in Hsingle; lia.
  - rewrite fmap_cons in Hsorted. by apply Sorted_inv in Hsorted as [? _].
Qed.

Lemma stored_of_type el k : type el = type_of k → el = stored (k, value el).
Proof. destruct el as [ty v]. simpl. by intros ->. Qed.

Lemma invariant_accepted selector :
  selector ≠ [] →
  selector_invariant selector →
  ∃ seed calls,
    selector = stored <$> seed :: calls
    ∧ accepted_from seed.1 calls.*1 = true.
Proof.
  induction selector as [|a selector IH]; [done|]. intros _ Hinv.
  pose proof Hinv as (Hkinds & Hsingle & Hsorted).
  apply Forall_cons in Hkinds as [[ka Hka] _].
  destruct selector as [|b selector].
  - exists (ka, value a), []. split; [|done]. simpl. f_equal. by apply stored_of_type.
  - destruct IH as (seed' & calls' & Heq & Hacc); [done | by eapply invariant_tail |].
    exists (ka, value a), (seed' :: calls'). split.
    + rewrite Heq. simpl. f_equal. by apply stored_of_type.
    + change (follows ka seed'.1 && accepted_from seed'.1 calls'.*1 = true).
      rewrite Hacc, andb_true_r.
      injection Heq as Hb _.
      assert (rank a ≤ rank b)%Z as Hle.
      { rewrite !fmap_cons in Hsorted. apply Sorted_inv in Hsorted as [_ Hhd].
        by apply HdRel_inv in Hhd. }
      rewrite (rank_of_type _ _ Hka) in Hle.
      rewrite Hb in Hle. unfold stored in Hle. rewrite rank_kind in Hle.
      unfold follows.
      destruct (kind_rank ka <? kind_rank seed'.1)%Z eqn:Hlt; [done|].
      apply Z.ltb_ge in Hlt. assert (kind_rank ka = kind_rank seed'.1) as Hsame by lia.
      rewrite Hsame, Z.eqb_refl. simpl.
      destruct (single seed'.1) eqn:Hs; [|done]. exfalso.
      specialize (Hsingle _ Hs). unfold occurrences in Hsingle.
      apply kind_rank_inj in Hsame. subst ka.
      rewrite filter_cons_True in Hsingle; [|done].
      rewrite filter_cons_True in Hsingle; [|by rewrite Hb].
      simpl in Hsingle. lia.
Qed.

(** X8. Every Selector of a reachable heap is what one accepted chain
    builds: its fragments are those of a facade call and of append calls
    each of which may follow the one before it, and its [stringify()] is
    the concatenation of their punctuated texts. No fragment falls to the
    default branch of the switch in [stringify]. *)
Theorem reachable_selector_spells_chain σ this selector :
  reachable σ →
  σ !! this = Some selector →
  ∃ seed calls,
    selector = stored <$> seed :: calls
    ∧ accepted_from seed.1 calls.*1 = true
    ∧ Selector.stringify this σ
      = (Normal (concatenation (punctuated <$> seed :: calls)), σ).
Proof.
  intros Hreach Hthis.
  destruct (reachable_invariant _ Hreach _ _ Hthis) as [Hinv Hne].
  destruct (invariant_accepted _ Hne Hinv) as (seed & calls & -> & Hacc).
  exists seed, calls. split; [done|]. split; [done|].
  rewrite (stringify_run _ _ _ Hthis). by rewrite reduce_stored.
Qed.

Lemma reachable_selector_spells_chain_witness :
  ∃ seed calls,
    [Fragment "id" "main"; Fragment "class" "c"] = stored <$> seed :: calls
    ∧ accepted_from seed.1 calls.*1 = true
    ∧ Selector.stringify 1%positive
        (exec (Append KElement "div" 1%positive)
           (exec (Append KClass "c" 1%positive) (exec (Create KId "main") ∅)))
      = (Normal (concatenation (punctuated <$> seed :: calls)),
         exec (Append KElement "div" 1%positive)
           (exec (Append KClass "c" 1%positive) (exec (Create KId "main") ∅))).
Proof.
  apply (reachable_selector_spells_chain
           (exec (Append KElement "div" 1%positive)
              (exec (Append KClass "c" 1%positive) (exec (Create KId "main") ∅)))
           1%positive).
  - apply reachable_step, reachable_step, reachable_step, reachable_init.
  - vm_compute. reflexivity.
Defined.

(** ** Rendering *)

(** X9. [stringify()] only reads: on a Selector or on a combined selector,
    completing or not, it leaves the heap as it found it, so a second call
    right after the first gives what the first gave. *)
Theorem stringify_reads_only x σ :
  (stringify x σ).2 = σ
  ∧ (stringify x;; stringify x) σ = stringify x σ.
Proof.
  pose proof (stringify_heap x σ) as Hheap. split; [done|].
  unfold mbind, M_bind.
  destruct (stringify x σ) as [[s|e] σ1] eqn:Hx; simpl in Hheap; subst σ1; done.
Qed.

(** X10. The rendering of nested combinations does not depend on how they
    are nested: [combine(combine(A, g, B), h, C)] and
    [combine(A, g, combine(B, h, C))] have the same [stringify()], error
    cases included. *)
Theorem combine_rendering_associative σ A g B h C :
  stringify (cssSelectorBuilder.combine (cssSelectorBuilder.combine A g B) h C) σ
  = stringify (cssSelectorBuilder.combine A g (cssSelectorBuilder.combine B h C)) σ.
Proof.
  simpl. unfold mbind, M_bind.
  pose proof (stringify_heap A σ) as HA.
  destruct (stringify A σ) as [[a|ea] σa]; simpl in HA; subst σa; [|done].
  pose proof (stringify_heap B σ) as HB.
  destruct (stringify B σ) as [[b|eb] σb]; simpl in HB; subst σb; [|done].
  unfold mret, M_ret.
  pose proof (stringify_heap C σ) as HC.
  destruct (stringify C σ) as [[c|ec] σc]; simpl in HC; subst σc; [|done].
  do 2 f_equal. by rewrite !append_assoc.
Qed.

(** ** [validate] with a type it does not know *)

Lemma indexOf_from_not_in i l x : x ∉ l → indexOf_from i l x = (-1)%Z.
Proof.
  revert i. induction l as [|y l IH]; intros i Hx; simpl; [done|].
  apply not_elem_of_cons in Hx as [Hne Hx].
  destruct (y === x) eqn:Heq; [by apply String.eqb_eq in Heq | by apply IH].
Qed.

(** X11. [validate] called on a built selector with a type that is not in
    [correctOrder] raises [SelectorOrderError]: [indexOf] gives [-1] for
    it, which is below the index of every stored type. *)
Theorem validate_unknown_type σ this selector type' :
  reachable σ →
  σ !! this = Some selector →
  type' ∉ correctOrder →
  Selector.validate type' this σ = (Throw SelectorOrderError, σ).
Proof.
  intros Hreach Hthis Hunknown.
  destruct (reachable_last _ _ _ Hreach Hthis) as [_ (lastEl & kl & Hlast & Hty)].
  rewrite (validate_check _ _ _ _ Hthis). f_equal. unfold check.
  assert ((type' === "element") || (type' === "id") || (type' === "pseudo-element") = false)
    as ->.
  { rewrite !orb_false_iff. repeat split; apply String.eqb_neq; intros ->;
      apply Hunknown; unfold correctOrder; set_solver. }
  simpl. rewrite Hlast, (rank_of_type _ _ Hty).
  unfold indexOf. rewrite (indexOf_from_not_in _ _ _ Hunknown).
  by destruct kl.
Qed.

Lemma validate_unknown_type_witness :
  Selector.validate "attribute" 1%positive
    (exec (Append KId "b" 1%positive) (exec (Create KElement "a") ∅))
  = (Throw SelectorOrderError,
     exec (Append KId "b" 1%positive) (exec (Create KElement "a") ∅)).
Proof.
  apply (validate_unknown_type _ _ [Fragment "element" "a"; Fragment "id" "b"]).
  - apply reachable_step, reachable_step, reachable_init.
  - vm_compute. reflexivity.
  - unfold correctOrder. intros Hin.
    repeat (apply elem_of_cons in Hin as [Hin | Hin]; [discriminate Hin|]).
    by apply elem_of_nil in Hin.
Defined.


(** An append call, completing or not, touches no other instance. *)
Lemma append_frame σ this k value (r : completion loc) σ' l :
  append k value this σ = (r, σ') →
  l ≠ this →
  σ' !! l = σ !! l.
Proof.
  intros Happend Hl. destruct (σ !! this) as [selector|] eqn:Hthis.
  - rewrite (append_run _ _ _ _ _ Hthis) in Happend.
    destruct (check selector (type_of k)); injection Happend as <- <-;
      [by apply lookup_insert_ne | done].
  - rewrite (append_no_instance _ _ _ _ Hthis) in Happend. by injection Happend as <- <-.
Qed.

(** X12. The rendering of a selector-like value depends only on the
    instances it refers to: an append call on a Selector it does not
    refer to, completing or not, leaves its [stringify()] as it was. *)
Theorem stringify_ignores_other_selectors x σ this k value r σ' :
  ¬ refers x this →
  append k value this σ = (r, σ') →
  (stringify x σ').1 = (stringify x σ).1.
Proof.
  intros Hx Happend.
  pose proof (λ l, append_frame _ _ _ _ _ _ l Happend) as Hframe.
  clear Happend. induction x as [this0 | sel1 IH1 combinator sel2 IH2]; simpl in *.
  - unfold Selector.stringify, mbind, M_bind, get_selector.
    rewrite (Hframe this0 Hx). by destruct (σ !! this0).
  - unfold mbind at 1 3, M_bind at 1 3.
    assert (¬ refers sel1 this) as H1 by tauto.
    assert (¬ refers sel2 this) as H2 by tauto.
    specialize (IH1 H1). specialize (IH2 H2).
    pose proof (stringify_heap sel1 σ) as Hσ1. pose proof (stringify_heap sel1 σ') as Hσ1'.
    destruct (stringify sel1 σ) as [r1 σ1], (stringify sel1 σ') as [r1' σ1'].
    simpl in *. subst σ1 σ1' r1'. destruct r1 as [s1|e1]; [|done].
    unfold mbind at 1 2, M_bind at 1 2.
    pose proof (stringify_heap sel2 σ) as Hσ2. pose proof (stringify_heap sel2 σ') as Hσ2'.
    destruct (stringify sel2 σ) as [r2 σ2], (stringify sel2 σ') as [r2' σ2'].
    simpl in *. subst σ2 σ2' r2'. by destruct r2.
Qed.

Lemma stringify_ignores_other_selectors_witness :
  (stringify (Combined (Ref 2%positive) ">" (Ref 2%positive))
     {[ 1%positive := [Fragment "id" "main"; Fragment "class" "c"];
        2%positive := [Fragment "element" "p"] ]}).1
  = (stringify (Combined (Ref 2%positive) ">" (Ref 2%positive))
       {[ 1%positive := [Fragment "id" "main"];
          2%positive := [Fragment "element" "p"] ]}).1.
Proof.
  apply (stringify_ignores_other_selectors
           (Combined (Ref 2%positive) ">" (Ref 2%positive))
           {[ 1%positive := [Fragment "id" "main"]; 2%positive := [Fragment "element" "p"] ]}
           1%positive KClass "c" (Normal 1%positive)).
  - simpl. intros [H | H]; discriminate H.
  - vm_compute. reflexivity.
Defined.

(** ** [Rectangle] *)

Lemma SFmul_comm prec emax x y :
  SpecFloat.SFmul prec emax x y = SpecFloat.SFmul prec emax y x.
Proof.
  destruct x as [sx|sx| |sx mx ex], y as [sy|sy| |sy my ey]; simpl;
    rewrite ?(xorb_comm sx sy); try reflexivity.
  by rewrite (Pos.mul_comm mx my), (Z.add_comm ex ey).
Qed.

Lemma SFcompare_refl x :
  x ≠ SpecFloat.S754_nan → SpecFloat.SFcompare x x = Some Eq.
Proof.
  destruct x as [[]|[]| |[] m e]; simpl; try done.
  - rewrite Z.compare_refl. by rewrite Pos.compare_cont_refl.
  - rewrite Z.compare_refl. by rewrite Pos.compare_cont_refl.
Qed.

(** [Number.isNaN(x)] is: the binary64 value of [x] is the NaN. *)
Lemma is_nan_spec x :
  PrimFloat.is_nan x = true ↔ FloatOps.Prim2SF x = SpecFloat.S754_nan.
Proof.
  unfold PrimFloat.is_nan. rewrite FloatAxioms.eqb_spec. unfold SpecFloat.SFeqb. split.
  - intros Hnan. destruct (FloatOps.Prim2SF x) as [s|s| |s m e] eqn:Hx; [| |done|].
    + by rewrite SFcompare_refl in Hnan.
    + by rewrite SFcompare_refl in Hnan.
    + by rewrite SFcompare_refl in Hnan.
  - by intros ->.
Qed.

(** X13. The area does not depend on which side is the width: the
    rectangle of sides [w] and [h] and the rectangle of sides [h] and [w]
    have the same [getArea()], rounding, infinities and NaN included. *)
Theorem getArea_symmetric w h :
  getArea (new_Rectangle w h) = getArea (new_Rectangle h w).
Proof.
  unfold getArea. simpl. apply FloatAxioms.Prim2SF_inj.
  rewrite !FloatAxioms.mul_spec. apply SFmul_comm.
Qed.

(** X14. [getArea()] of a rectangle one side of which is NaN is NaN: the
    method raises nothing and checks nothing. *)
Theorem getArea_nan this :
  PrimFloat.is_nan (width this) = true ∨ PrimFloat.is_nan (height this) = true →
  PrimFloat.is_nan (getArea this) = true.
Proof.
  unfold getArea. rewrite !is_nan_spec, FloatAxioms.mul_spec.
  unfold FloatAxioms.SF64mul.
  intros [-> | ->]; [done|]. by destruct (FloatOps.Prim2SF (width this)).
Qed.

Lemma getArea_nan_witness :
  PrimFloat.is_nan (getArea (new_Rectangle PrimFloat.one PrimFloat.nan)) = true.
Proof.
  apply (getArea_nan (new_Rectangle PrimFloat.one PrimFloat.nan)).
  right. vm_compute. reflexivity.
Defined.
